(** * The step workflow of brambling/views/utils.py

    A shallow embedding of [Workflow], [Step] and the parts of
    [WorkflowMixin] that drive a workflow ([dispatch], [get_success_url]).

    The step classes of a concrete workflow (their slugs, locations,
    [include_in], [is_active], [_is_completed] and [get_errors] overrides)
    are parameters of the development.  The object state of a step that the
    code mutates, the memo fields [_completed] and [_errors], is threaded
    explicitly, together with a count of the calls of the two underlying
    predicates, so that memoisation is observable.  Python exceptions are
    the [Err] results; an exception keeps the state effects made before it. *)

From Stdlib Require Import List String Bool Arith ZArith Lia.
Import ListNotations.
Open Scope string_scope.

(** Exceptions the code can raise. *)
Inductive exc :=
| ValueError
| AttributeError
| TypeError
| RecursionError.

Inductive res (A : Type) :=
| Ok (a : A)
| Err (e : exc).
Arguments Ok {A} a.
Arguments Err {A} e.

Section Brambling.

(** The step classes of the workflow subclass, with their class attributes
    [slug] and [view_name]. *)
Context {Cls : Type}.
Variable slug : Cls -> string.
Variable view_name : Cls -> string.

(** Values of contextual attributes (the keyword arguments of
    [Workflow.__init__]): either a list of step classes or any other
    datum. *)
Context {Data : Type}.
Inductive value :=
| VClasses (l : list Cls)
| VData (d : Data).

(** The instance attributes of a [Workflow] object, in insertion order. *)
Definition attrs := list (string * value).

(** [Workflow.step_classes], the class attribute of the subclass. *)
Variable step_classes : list Cls.

(** [Step.include_in], a classmethod reading the workflow's attributes. *)
Variable include_in : attrs -> Cls -> bool.

(** A step instance: its class and its [index]. *)
Record Step := mkStep { step_cls : Cls; index : nat }.

(** A constructed workflow: its attributes and the ordered dict [steps]. *)
Record Workflow := mkWorkflow { wf_attrs : attrs; steps : list (string * Step) }.

(** ** Construction *)

Fixpoint attr_lookup (k : string) (a : attrs) : option value :=
  match a with
  | [] => None
  | (k', v) :: a' => if String.eqb k k' then Some v else attr_lookup k a'
  end.

(** [setattr] on an ordinary attribute: overwrite or add. *)
Fixpoint attr_set (k : string) (v : value) (a : attrs) : attrs :=
  match a with
  | [] => [(k, v)]
  | (k', v') :: a' => if String.eqb k k' then (k, v) :: a' else (k', v') :: attr_set k v a'
  end.

(** A class a [Workflow] instance can have while it is constructed: the
    value of its [step_classes] attribute ([None]: it has none) and the
    names of its read-only properties (data descriptors without a setter). *)
Record Klass := mkKlass { k_step_classes : option value; k_readonly : list string }.

(** The workflow subclass being instantiated: its class attribute
    [step_classes] and the read-only property [active_steps]. *)
Definition workflow_class : Klass := mkKlass (Some (VClasses step_classes)) ["active_steps"].

(** What the interpreter makes of a datum: the entries of a dict; the class
    it is, when the instance can be switched to it (a class with the same
    instance layout); the items of an iterable, in order, each a step class
    or an object without an [include_in] attribute. *)
Variable as_dict : Data -> option attrs.
Variable as_class : Data -> option Klass.
Variable iter_items : Data -> option (list (option Cls)).

(** [setattr(self, k, v)] on a [Workflow] instance of class [c]: the data
    descriptors of the class come before the instance dict.  [__class__]
    accepts only a class the instance can be switched to and [__dict__]
    only a dict (which becomes the instance dict); [__weakref__] and the
    read-only properties refuse assignment. *)
Definition setattr (k : string) (v : value) (a : attrs) (c : Klass) : res (attrs * Klass) :=
  if String.eqb k "__class__" then
    match v with
    | VData d => match as_class d with Some c' => Ok (a, c') | None => Err TypeError end
    | VClasses _ => Err TypeError
    end
  else if String.eqb k "__dict__" then
    match v with
    | VData d => match as_dict d with Some a' => Ok (a', c) | None => Err TypeError end
    | VClasses _ => Err TypeError
    end
  else if String.eqb k "__weakref__" || existsb (String.eqb k) (k_readonly c) then
    Err AttributeError
  else Ok (attr_set k v a, c).

(** [for k, v in kwargs.items(): setattr(self, k, v)], the keyword
    arguments in the order [items()] yields them; returns the instance's
    attributes and class reached. *)
Fixpoint set_kwargs (kw : list (string * value)) (a : attrs) (c : Klass) : res unit * (attrs * Klass) :=
  match kw with
  | [] => (Ok tt, (a, c))
  | (k, v) :: kw' =>
      match setattr k v a c with
      | Err e => (Err e, (a, c))
      | Ok (a', c') => set_kwargs kw' a' c'
      end
  end.

(** The classes [ifilter] draws from an iterable: an item without
    [include_in] raises [AttributeError] when the filter reaches it. *)
Fixpoint classes_of (items : list (option Cls)) : res (list Cls) :=
  match items with
  | [] => Ok []
  | None :: _ => Err AttributeError
  | Some c :: items' =>
      match classes_of items' with
      | Ok l => Ok (c :: l)
      | Err e => Err e
      end
  end.

(** Iterating a value: a datum that is not iterable raises [TypeError]. *)
Definition iter_classes (v : value) : res (list Cls) :=
  match v with
  | VClasses l => Ok l
  | VData d =>
      match iter_items d with
      | None => Err TypeError
      | Some items => classes_of items
      end
  end.

(** [self.step_classes] (an instance attribute shadows the class
    attribute; a class without one raises [AttributeError]), iterated. *)
Definition get_step_classes (a : attrs) (c : Klass) : res (list Cls) :=
  match attr_lookup "step_classes" a with
  | Some v => iter_classes v
  | None =>
      match k_step_classes c with
      | Some v => iter_classes v
      | None => Err AttributeError
      end
  end.

(** [OrderedDict] built from pairs: a repeated key keeps its first position
    and takes the last value. *)
Fixpoint od_set (k : string) (v : Step) (d : list (string * Step)) : list (string * Step) :=
  match d with
  | [] => [(k, v)]
  | (k', v') :: d' => if String.eqb k k' then (k, v) :: d' else (k', v') :: od_set k v d'
  end.

Fixpoint od_from (d : list (string * Step)) (l : list (string * Step)) : list (string * Step) :=
  match l with
  | [] => d
  | (k, v) :: l' => od_from (od_set k v d) l'
  end.

(** [enumerate] from a start index. *)
Fixpoint enumerate_from (i : nat) (l : list Cls) : list (nat * Cls) :=
  match l with
  | [] => []
  | c :: l' => (i, c) :: enumerate_from (S i) l'
  end.

Definition build_steps (a : attrs) (classes : list Cls) : list (string * Step) :=
  od_from [] (map (fun '(i, c) => (slug c, mkStep c i))
                  (enumerate_from 0 (filter (include_in a) classes))).

(** [Workflow.__init__] with keyword arguments [kw], run on a fresh
    instance of the subclass (no attributes); returns the constructed
    workflow or the exception, with the instance's attributes at the end.
    The assignment [self.steps = ...] fails on a class where [steps] is a
    read-only property. *)
Definition Workflow_init (kw : list (string * value)) : res Workflow * attrs :=
  if existsb (fun '(k, _) => String.eqb k "steps") kw then (Err ValueError, [])
  else
    match set_kwargs kw [] workflow_class with
    | (Err e, (a, _)) => (Err e, a)
    | (Ok _, (a, c)) =>
        match get_step_classes a c with
        | Err e => (Err e, a)
        | Ok classes =>
            if existsb (String.eqb "steps") (k_readonly c) then (Err AttributeError, a)
            else (Ok (mkWorkflow a (build_steps a classes)), a)
        end
    end.

(** The data descriptors of [Workflow] that [setattr] does not simply store
    in the instance dict. *)
Definition descriptor_names : list string :=
  ["__class__"; "__dict__"; "__weakref__"; "active_steps"].

(** ** Navigation *)

(** The external state consulted by the step predicates (database
    contents and the like), and the validation errors. *)
Context {Env : Type} {Err_t : Type}.

(** The overridable step methods. *)
Variable is_active : Env -> Step -> bool.
Variable _is_completed : Env -> Step -> bool.
Variable get_errors : Env -> Step -> list Err_t.

(** [self.workflow.steps.values()] *)
Definition values (w : Workflow) : list Step := map snd (steps w).

Definition previous_step (w : Workflow) (e : Env) (s : Step) : option Step :=
  find (is_active e) (rev (firstn (index s) (values w))).

Definition next_step (w : Workflow) (e : Env) (s : Step) : option Step :=
  find (is_active e) (skipn (S (index s)) (values w)).

(** ** Object state of the steps *)

(** The memo fields of the step instances, keyed by the instance's
    [index] (the instances of one workflow have distinct indices), the
    external state, and how often [_is_completed] and [get_errors] ran on
    each instance. *)
Record RState := mkRState {
  env : Env;
  memo_completed : nat -> option bool;
  memo_errors : nat -> option (list Err_t);
  calls_completed : nat -> nat;
  calls_errors : nat -> nat }.

Definition fresh (e : Env) : RState :=
  mkRState e (fun _ => None) (fun _ => None) (fun _ => 0) (fun _ => 0).

Definition upd {A} (f : nat -> A) (i : nat) (x : A) : nat -> A :=
  fun j => if Nat.eqb j i then x else f j.

Definition set_completed (st : RState) (i : nat) (b : bool) : RState :=
  mkRState (env st) (upd (memo_completed st) i (Some b)) (memo_errors st)
    (upd (calls_completed st) i (S (calls_completed st i))) (calls_errors st).

Definition set_errors (st : RState) (i : nat) (es : list Err_t) : RState :=
  mkRState (env st) (memo_completed st) (upd (memo_errors st) i (Some es))
    (calls_completed st) (upd (calls_errors st) i (S (calls_errors st i))).

(** A change of the external state between calls. *)
Definition set_env (st : RState) (e : Env) : RState :=
  mkRState e (memo_completed st) (memo_errors st) (calls_completed st) (calls_errors st).

(** State and exception monad. *)
Definition M (A : Type) := RState -> res A * RState.

Definition ret {A} (a : A) : M A := fun st => (Ok a, st).
Definition throw {A} (e : exc) : M A := fun st => (Err e, st).
Definition bind {A B} (m : M A) (k : A -> M B) : M B := fun st =>
  match m st with
  | (Ok a, st') => k a st'
  | (Err e, st') => (Err e, st')
  end.
Definition get_env : M Env := fun st => (Ok (env st), st).

Local Notation "x <- m ;; k" := (bind m (fun x => k))
  (at level 61, m at next level, right associativity).

(** ** Step methods *)

(** [if not hasattr(self, '_completed'): self._completed = self._is_completed()] *)
Definition completed_field (s : Step) : M bool := fun st =>
  match memo_completed st (index s) with
  | Some b => (Ok b, st)
  | None => let b := _is_completed (env st) s in (Ok b, set_completed st (index s) b)
  end.

(** The property [errors]. *)
Definition errors (s : Step) : M (list Err_t) := fun st =>
  match memo_errors st (index s) with
  | Some es => (Ok es, st)
  | None => let es := get_errors (env st) s in (Ok es, set_errors st (index s) es)
  end.

Definition is_valid (s : Step) : M bool :=
  es <- errors s ;; ret (match es with [] => true | _ :: _ => false end).

(** [is_completed], recursing through [previous_step]; [n] bounds the
    depth of the recursion (running out is Python's recursion error). *)
Fixpoint is_completed_fuel (n : nat) (w : Workflow) (s : Step) : M bool :=
  match n with
  | 0 => throw RecursionError
  | S n' =>
      c <- completed_field s ;;
      if c then
        v <- is_valid s ;;
        if v then
          e <- get_env ;;
          match previous_step w e s with
          | None => ret true
          | Some p => is_completed_fuel n' w p
          end
        else ret false
      else ret false
  end.

(** A chain of previous steps longer than the workflow repeats a step, and
    then recurses forever: [length (values w) + 1] levels decide the call. *)
Definition is_completed (w : Workflow) (s : Step) : M bool :=
  is_completed_fuel (S (List.length (values w))) w s.

Definition is_accessible (w : Workflow) (s : Step) : M bool :=
  e <- get_env ;;
  match previous_step w e s with
  | None => ret true
  | Some p => is_completed w p
  end.

(** The property [Workflow.active_steps]. *)
Definition active_steps (w : Workflow) : M (list Step) :=
  e <- get_env ;; ret (filter (is_active e) (values w)).

(** ** The controller: [WorkflowMixin] *)

Inductive outcome :=
| Redirect (target : Step)
| Proceed (current_step : option Step).

(** [OrderedDict.get] *)
Fixpoint od_get (k : string) (d : list (string * Step)) : option Step :=
  match d with
  | [] => None
  | (k', v) :: d' => if String.eqb k k' then Some v else od_get k d'
  end.

(** [for step in reversed(self.workflow.steps.values()): ...] *)
Fixpoint redirect_scan (w : Workflow) (l : list Step) (cur : option Step) : M outcome :=
  match l with
  | [] => ret (Proceed cur)
  | t :: l' =>
      a <- is_accessible w t ;;
      e <- get_env ;;
      if a && is_active e t then ret (Redirect t) else redirect_scan w l' cur
  end.

(** [WorkflowMixin.dispatch], given the result of [get_workflow()] and
    [current_step_slug]. *)
Definition dispatch (wf : option Workflow) (current_step_slug : option string) : M outcome :=
  match wf, current_step_slug with
  | Some w, Some sl =>
      let cur := od_get sl (steps w) in
      bad <- match cur with
             | None => ret true
             | Some s =>
                 e <- get_env ;;
                 if is_active e s then (a <- is_accessible w s ;; ret (negb a))
                 else ret true
             end ;;
      if bad then redirect_scan w (rev (values w)) cur else ret (Proceed cur)
  | _, _ => ret (Proceed None)
  end.

(** [WorkflowMixin.get_success_url]: the location of the step to go to
    (the [reverse] of its [view_name]); [None.view_name] raises. *)
Definition get_success_url (w : Workflow) (current_step : option Step) : M string :=
  match current_step with
  | None => throw AttributeError
  | Some s =>
      es <- errors s ;;
      match es with
      | _ :: _ => ret (view_name (step_cls s))
      | [] =>
          e <- get_env ;;
          match next_step w e s with
          | None => throw AttributeError
          | Some n => ret (view_name (step_cls n))
          end
      end
  end.

(** Calls made on the objects of one workflow, and changes of the external
    state between them. *)
Inductive op :=
| OpIsCompleted (s : Step)
| OpErrors (s : Step)
| OpIsValid (s : Step)
| OpIsAccessible (s : Step)
| OpActiveSteps
| OpDispatch (sl : option string)
| OpSuccessUrl (s : option Step)
| OpSetEnv (e : Env).

Definition run_op (w : Workflow) (o : op) (st : RState) : RState :=
  match o with
  | OpIsCompleted s => snd (is_completed w s st)
  | OpErrors s => snd (errors s st)
  | OpIsValid s => snd (is_valid s st)
  | OpIsAccessible s => snd (is_accessible w s st)
  | OpActiveSteps => snd (active_steps w st)
  | OpDispatch sl => snd (dispatch (Some w) sl st)
  | OpSuccessUrl s => snd (get_success_url w s st)
  | OpSetEnv e => set_env st e
  end.

Fixpoint run (w : Workflow) (ops : list op) (st : RState) : RState :=
  match ops with
  | [] => st
  | o :: ops' => run w ops' (run_op w o st)
  end.

(** ** Reading the step predicates without the memo fields *)

(** What [is_completed] computes when every memo field already set holds
    the value its predicate has in the external state [e] (as in a
    workflow built for the current request); [None] is the recursion
    error. *)
Fixpoint completed_val (n : nat) (w : Workflow) (e : Env) (s : Step) : option bool :=
  match n with
  | 0 => None
  | S n' =>
      if _is_completed e s then
        match get_errors e s with
        | [] =>
            match previous_step w e s with
            | None => Some true
            | Some p => completed_val n' w e p
            end
        | _ :: _ => Some false
        end
      else Some false
  end.

Definition accessible_val (w : Workflow) (e : Env) (s : Step) : option bool :=
  match previous_step w e s with
  | None => Some true
  | Some p => completed_val (S (List.length (values w))) w e p
  end.

Definition accessible_b (w : Workflow) (e : Env) (s : Step) : bool :=
  match accessible_val w e s with Some b => b | None => false end.

(** The three checks of [dispatch] on the requested step. *)
Definition requested_ok (w : Workflow) (e : Env) (cur : option Step) : bool :=
  match cur with
  | None => false
  | Some s => is_active e s && accessible_b w e s
  end.

(** The memo fields set in [st] hold their predicate's value. *)
Definition Consistent (w : Workflow) (st : RState) : Prop :=
  forall s, In s (values w) ->
    (forall b, memo_completed st (index s) = Some b -> b = _is_completed (env st) s) /\
    (forall es, memo_errors st (index s) = Some es -> es = get_errors (env st) s).

(** Each step's [index] is its position in [steps], as construction
    produces when the slugs are distinct. *)
Definition WF (w : Workflow) : Prop :=
  map index (values w) = seq 0 (List.length (values w)).

(** [st'] only adds memo fields to [st], under the same external state. *)
Definition ext (st st' : RState) : Prop :=
  env st' = env st /\
  (forall i b, memo_completed st i = Some b -> memo_completed st' i = Some b) /\
  (forall i es, memo_errors st i = Some es -> memo_errors st' i = Some es).

(** Each underlying predicate ran once on the instances whose memo field is
    set, and never on the others. *)
Definition Counted (st : RState) : Prop :=
  forall i,
    calls_completed st i = (match memo_completed st i with Some _ => 1 | None => 0 end) /\
    calls_errors st i = (match memo_errors st i with Some _ => 1 | None => 0 end).

(** A computation that keeps [Counted]. *)
Definition keeps_counted {A} (m : M A) : Prop :=
  forall st, Counted st -> Counted (snd (m st)).

End Brambling.

(** ** The other helpers of views/utils.py *)

Section Helpers.

(** [WorkflowMixin._clean_kwargs]: the URL keyword arguments ([self.kwargs],
    a dict, as an association list; Python's [None] is [None]) whose value
    is not [None]. *)
Definition _clean_kwargs {V : Type} (kwargs : list (string * option V)) : list (string * option V) :=
  filter (fun '(_, v) => match v with Some _ => true | None => false end) kwargs.

(** [dict.get] on a dict given as an association list. *)
Fixpoint dict_get {V : Type} (k : string) (d : list (string * V)) : option V :=
  match d with
  | [] => None
  | (k', v) :: d' => if String.eqb k k' then Some v else dict_get k d'
  end.

Context {Req Event User : Type}.
Variable request_path : Req -> string.
Variable request_user : Req -> User.

(** [NavItem]: its fields as [__init__] sets them. *)
Record NavItem := mkNavItem {
  nav_request : Req; nav_url : string; nav_label : string;
  nav_disabled : bool; nav_icon : string }.

(** [NavItem.is_active]: [self.request.path.startswith(self.url)]. *)
Definition NavItem_is_active (n : NavItem) : bool :=
  String.prefix (nav_url n) (request_path (nav_request n)).

Variable editable_by : Event -> User -> bool.
Variable event_slug organization_slug : Event -> string.
(** [django.core.urlresolvers.reverse] with keyword arguments. *)
Variable reverse : string -> list (string * string) -> string.

Definition admin_nav_items : list (string * string * string) :=
  [("brambling_event_summary", "Summary", "fa-dashboard");
   ("brambling_event_update", "Settings", "fa-cog");
   ("brambling_item_list", "Items", "fa-list");
   ("brambling_form_list", "Forms", "fa-question");
   ("brambling_discount_list", "Discounts", "fa-gift");
   ("brambling_event_attendees", "Attendees", "fa-users");
   ("brambling_event_orders", "Orders", "fa-ticket");
   ("brambling_event_finances", "Finances", "fa-money")].

Definition get_event_admin_nav (event : Event) (request : Req) : list NavItem :=
  if negb (editable_by event (request_user request)) then []
  else
    let kwargs := [("event_slug", event_slug event);
                   ("organization_slug", organization_slug event)] in
    map (fun '(view_name, label, icon) =>
           mkNavItem request (reverse view_name kwargs) label false icon)
        admin_nav_items.

(** [ajax_required]: a view returns a response or raises; [Http404] is one
    of the exceptions a view can raise. *)
Context {Resp Exn : Type}.
Variable Http404 : Exn.
Variable is_ajax : Req -> bool.

(** [split_view]: the view [if_true] or [if_false], chosen by [test] on
    the request (the positional and keyword arguments of the view are part
    of [Req]). *)
Definition split_view {R : Type} (test : Req -> bool) (if_true if_false : Req -> R) : Req -> R :=
  fun request => if test request then if_true request else if_false request.

Variable HttpResponseRedirect : string -> Resp.

(** [route_view]: a redirect to the (lazily reversed) location [if_true]
    or [if_false], chosen by [test]. *)
Definition route_view (test : Req -> bool) (if_true if_false : string) : Req -> Resp + Exn :=
  fun request => inl (HttpResponseRedirect (if test request then if_true else if_false)).

Definition ajax_required (view : Req -> Resp + Exn) : Req -> Resp + Exn :=
  fun request => if negb (is_ajax request) then inr Http404 else view request.

(** [clear_expired_carts]: the bought items of the database (a table, in
    order), each with its order's event and cart start time; datetimes are
    microsecond timestamps.  [BoughtItem.RESERVED] is the status constant of
    the models. *)
Record Order := mkOrder { order_event : nat; cart_start_time : option Z }.
Record BoughtItem := mkBoughtItem { status : string; order : Order }.

Variable RESERVED : string.
Variable event_pk : Event -> nat.
Variable cart_timeout : Event -> Z.

(** The filter of the query: [status=RESERVED, order__event=event,
    order__cart_start_time__isnull=False, order__cart_start_time__lte=expired_before]. *)
Definition expired_match (event : Event) (expired_before : Z) (b : BoughtItem) : bool :=
  String.eqb (status b) RESERVED &&
  Nat.eqb (order_event (order b)) (event_pk event) &&
  match cart_start_time (order b) with
  | Some t => Z.leb t expired_before
  | None => false
  end.

(** [timezone.now() - timedelta(minutes=event.cart_timeout)], then
    [.delete()] of the matching rows. *)
Definition clear_expired_carts (now : Z) (event : Event) (db : list BoughtItem) : list BoughtItem :=
  let expired_before := (now - cart_timeout event * 60000000)%Z in
  filter (fun b => negb (expired_match event expired_before b)) db.

End Helpers.

(** ** A concrete workflow

    Three step classes [0], [1], [2] with slugs "a", "b", "c" (class [3]
    reuses the slug "a"); the contextual attribute "skip" lists classes
    whose [include_in] is false.  The external state says which classes are
    inactive, which are completed and which have validation errors. *)
Module Demo.

Definition Cls := nat.

Definition slug (c : Cls) : string :=
  match c with 0 => "a" | 1 => "b" | 2 => "c" | _ => "a" end.

Definition view_name (c : Cls) : string := "view_" ++ slug c.

Definition mem (c : Cls) (l : list Cls) : bool := existsb (Nat.eqb c) l.

Definition include_in (a : @attrs Cls unit) (c : Cls) : bool :=
  match attr_lookup "skip" a with
  | Some (VClasses l) => negb (mem c l)
  | _ => true
  end.

Record Env := mkEnv { inactive : list Cls; done : list Cls; invalid : list Cls }.

Definition is_active (e : Env) (s : Step) : bool := negb (mem (step_cls s) (inactive e)).
Definition _is_completed (e : Env) (s : Step) : bool := mem (step_cls s) (done e).
Definition get_errors (e : Env) (s : Step) : list string :=
  if mem (step_cls s) (invalid e) then ["invalid"] else [].

(** The data are [tt]: not a dict, not a class, not iterable. *)
Definition as_dict (d : unit) : option (@attrs Cls unit) := None.
Definition as_class (d : unit) : option (@Klass Cls unit) := None.
Definition iter_items (d : unit) : option (list (option Cls)) := None.

Definition init (classes : list Cls) (kw : list (string * @value Cls unit)) :=
  Workflow_init slug classes include_in as_dict as_class iter_items kw.

(** The workflow built, or the empty one when construction raises. *)
Definition wf (classes : list Cls) (kw : list (string * @value Cls unit)) : @Workflow Cls unit :=
  match fst (init classes kw) with
  | Ok w => w
  | Err _ => mkWorkflow [] []
  end.

Definition ABC := wf [0; 1; 2] [].
Definition AC := wf [0; 1; 2] [("skip", VClasses [1])].

Definition A := mkStep 0 0.
Definition B := mkStep 1 1.
Definition C := mkStep 2 2.

(** A completed, B not. *)
Definition e1 := mkEnv [] [0] [].
(** A and B completed. *)
Definition e2 := mkEnv [] [0; 1] [].
(** A inactive, nothing completed. *)
Definition e3 := mkEnv [0] [] [].

Definition is_completed := @is_completed Cls unit Env string is_active _is_completed get_errors.
Definition is_accessible := @is_accessible Cls unit Env string is_active _is_completed get_errors.
Definition dispatch := @dispatch Cls unit Env string is_active _is_completed get_errors.
Definition get_success_url := @get_success_url Cls view_name unit Env string is_active get_errors.

End Demo.

(** ** Tests on the examples of the specification *)

Example demo_ABC_steps :
  Demo.ABC = mkWorkflow [] [("a", Demo.A); ("b", Demo.B); ("c", Demo.C)].
Proof. reflexivity. Qed.

Example demo_ABC_gating :
  fst (Demo.is_completed Demo.ABC Demo.A (fresh Demo.e1)) = Ok true /\
  fst (Demo.is_accessible Demo.ABC Demo.B (fresh Demo.e1)) = Ok true /\
  fst (Demo.is_accessible Demo.ABC Demo.C (fresh Demo.e1)) = Ok false /\
  previous_step Demo.is_active Demo.ABC Demo.e1 Demo.B = Some Demo.A /\
  next_step Demo.is_active Demo.ABC Demo.e1 Demo.A = Some Demo.B /\
  previous_step Demo.is_active Demo.ABC Demo.e1 Demo.C = Some Demo.B.
Proof. repeat split; reflexivity. Qed.

Example demo_AC :
  values Demo.AC = [Demo.A; mkStep 2 1] /\
  next_step Demo.is_active Demo.AC Demo.e1 Demo.A = Some (mkStep 2 1) /\
  previous_step Demo.is_active Demo.AC Demo.e1 (mkStep 2 1) = Some Demo.A.
Proof. repeat split; reflexivity. Qed.

(** * Proofs *)

Section Proofs.

Local Open Scope list_scope.

Context {Cls Data Env Err_t : Type}.
Variable slug view_name : Cls -> string.
Variable step_classes : list Cls.
Variable include_in : @attrs Cls Data -> Cls -> bool.
Variable as_dict : Data -> option (@attrs Cls Data).
Variable as_class : Data -> option (@Klass Cls Data).
Variable iter_items : Data -> option (list (option Cls)).
Variable is_active _is_completed : Env -> @Step Cls -> bool.
Variable get_errors : Env -> @Step Cls -> list Err_t.

Local Abbreviation WF_t := (@Workflow Cls Data).
Local Abbreviation ST := (@RState Env Err_t).
Local Abbreviation iscf := (@is_completed_fuel Cls Data Env Err_t is_active _is_completed get_errors).
Local Abbreviation isc := (@is_completed Cls Data Env Err_t is_active _is_completed get_errors).
Local Abbreviation isa := (@is_accessible Cls Data Env Err_t is_active _is_completed get_errors).
Local Abbreviation errs := (@errors Cls Env Err_t get_errors).
Local Abbreviation prev := (@previous_step Cls Data Env is_active).

Create HintDb counted.

Ltac unfold_m := unfold bind, ret, throw, get_env in *.

(** *** Memo fields only grow *)

Lemma ext_refl (st : ST) : ext st st.
Proof. unfold ext; auto. Qed.

Lemma ext_trans (st1 st2 st3 : ST) : ext st1 st2 -> ext st2 st3 -> ext st1 st3.
Proof.
  unfold ext; intros (E1 & C1 & R1) (E2 & C2 & R2); split; [congruence | auto].
Qed.

Lemma completed_field_ext (s : @Step Cls) (st st' : ST) r :
  completed_field _is_completed s st = (r, st') ->
  exists c, r = Ok c /\ ext st st' /\ memo_completed st' (index s) = Some c.
Proof.
  unfold completed_field. destruct (memo_completed st (index s)) as [c|] eqn:Hm;
    intros H; inversion H; subst; clear H.
  - exists c; repeat split; auto using ext_refl.
  - eexists; split; [reflexivity|]. split.
    + unfold ext, set_completed, upd; simpl; repeat split;
        intros i b Hi; destruct (Nat.eqb i (index s)) eqn:E; auto.
      apply Nat.eqb_eq in E; subst; congruence.
    + unfold set_completed, upd; simpl; rewrite Nat.eqb_refl; reflexivity.
Qed.

Lemma errors_ext (s : @Step Cls) (st st' : ST) r :
  errs s st = (r, st') ->
  exists es, r = Ok es /\ ext st st' /\ memo_errors st' (index s) = Some es.
Proof.
  unfold errors. destruct (memo_errors st (index s)) as [es|] eqn:Hm;
    intros H; inversion H; subst; clear H.
  - exists es; repeat split; auto using ext_refl.
  - eexists; split; [reflexivity|]. split.
    + unfold ext, set_errors, upd; simpl; repeat split;
        intros i b Hi; destruct (Nat.eqb i (index s)) eqn:E; auto.
      apply Nat.eqb_eq in E; subst; congruence.
    + unfold set_errors, upd; simpl; rewrite Nat.eqb_refl; reflexivity.
Qed.

Lemma completed_field_memo (s : @Step Cls) (st : ST) c :
  memo_completed st (index s) = Some c -> completed_field _is_completed s st = (Ok c, st).
Proof. unfold completed_field; intros ->; reflexivity. Qed.

Lemma errors_memo (s : @Step Cls) (st : ST) es :
  memo_errors st (index s) = Some es -> errs s st = (Ok es, st).
Proof. unfold errors; intros ->; reflexivity. Qed.

(** One level of [is_completed], given the step's completion and errors as
    the calls return them. *)
Lemma iscf_unfold n (w : WF_t) (s : @Step Cls) (st : ST) :
  iscf (S n) w s st =
  match completed_field _is_completed s st with
  | (Ok true, st1) =>
      match errs s st1 with
      | (Ok [], st2) =>
          match prev w (env st2) s with
          | None => (Ok true, st2)
          | Some p => iscf n w p st2
          end
      | (Ok (_ :: _), st2) => (Ok false, st2)
      | (Err e, st2) => (Err e, st2)
      end
  | (Ok false, st1) => (Ok false, st1)
  | (Err e, st1) => (Err e, st1)
  end.
Proof.
  simpl. unfold_m. unfold is_valid. unfold_m.
  destruct (completed_field _is_completed s st) as [[[|]|] st1]; try reflexivity.
  destruct (errs s st1) as [[[|]|] st2]; try reflexivity.
  destruct (prev w (env st2) s); reflexivity.
Qed.

Lemma iscf_ext n (w : WF_t) (s : @Step Cls) (st st' : ST) r :
  iscf n w s st = (r, st') -> ext st st'.
Proof.
  revert s st st' r; induction n as [|n IH]; intros s st st' r H.
  - simpl in H; unfold_m; inversion H; subst; apply ext_refl.
  - rewrite iscf_unfold in H.
    destruct (completed_field _is_completed s st) as [r1 st1] eqn:H1.
    destruct (completed_field_ext _ _ _ _ H1) as (c & -> & X1 & _).
    destruct c; [|inversion H; subst; auto].
    destruct (errs s st1) as [r2 st2] eqn:H2.
    destruct (errors_ext _ _ _ _ H2) as (es & -> & X2 & _).
    destruct es; [|inversion H; subst; eauto using ext_trans].
    destruct (prev w (env st2) s) as [p|];
      [apply IH in H | inversion H; subst]; eauto using ext_trans.
Qed.

(** A repeated call on the resulting state returns the same result and
    changes nothing. *)
Lemma iscf_idem n (w : WF_t) (s : @Step Cls) (st st' : ST) r :
  iscf n w s st = (r, st') -> iscf n w s st' = (r, st').
Proof.
  revert s st st' r; induction n as [|n IH]; intros s st st' r H.
  - simpl in *; unfold_m; inversion H; subst; reflexivity.
  - pose proof (iscf_ext _ _ _ _ _ _ H) as Xall.
    rewrite iscf_unfold in H |- *.
    destruct (completed_field _is_completed s st) as [r1 st1] eqn:H1.
    destruct (completed_field_ext _ _ _ _ H1) as (c & -> & X1 & M1).
    destruct c.
    2:{ inversion H; subst. rewrite (completed_field_memo _ _ _ M1); reflexivity. }
    destruct (errs s st1) as [r2 st2] eqn:H2.
    destruct (errors_ext _ _ _ _ H2) as (es & -> & X2 & M2).
    destruct es as [|x es].
    2:{ inversion H; subst.
        rewrite (completed_field_memo s st' true), (errors_memo s st' (x :: es)); auto.
        apply X2; exact M1. }
    destruct (prev w (env st2) s) as [p|] eqn:Hp.
    + pose proof (iscf_ext _ _ _ _ _ _ H) as X3.
      destruct X3 as (E3 & C3 & R3).
      rewrite (completed_field_memo s st' true), (errors_memo s st' []); auto.
      * rewrite E3, Hp. exact (IH _ _ _ _ H).
      * apply C3, X2, M1.
    + inversion H; subst.
      rewrite (completed_field_memo s st' true), (errors_memo s st' []), Hp; auto.
      apply X2, M1.
Qed.

(** More recursion depth changes nothing once the call returned. *)
Lemma iscf_mono n m (w : WF_t) (s : @Step Cls) (st st' : ST) b :
  iscf n w s st = (Ok b, st') -> n <= m -> iscf m w s st = (Ok b, st').
Proof.
  revert m s st st' b; induction n as [|n IH]; intros m s st st' b H Hle.
  - simpl in H; unfold_m; discriminate.
  - destruct m as [|m]; [lia|].
    rewrite iscf_unfold in H |- *.
    destruct (completed_field _is_completed s st) as [[[|]|] st1]; auto.
    destruct (errs s st1) as [[[|]|] st2]; auto.
    destruct (prev w (env st2) s); auto.
    apply IH; [exact H | lia].
Qed.

Lemma is_accessible_unfold (w : WF_t) (s : @Step Cls) (st : ST) :
  isa w s st =
  match prev w (env st) s with
  | None => (Ok true, st)
  | Some p => isc w p st
  end.
Proof.
  unfold is_accessible; unfold_m. destruct (prev w (env st) s); reflexivity.
Qed.

(** *** Completion and accessibility *)

(** C1: when [s.is_completed()] returns true, [s.previous_step] is [None]
    or its [is_completed()] returns true as well (on the state the first
    call left, and without changing it). *)
Theorem is_completed_prefix (w : WF_t) (s : @Step Cls) (st st' : ST) :
  isc w s st = (Ok true, st') ->
  prev w (env st') s = None \/
  exists p, prev w (env st') s = Some p /\ isc w p st' = (Ok true, st').
Proof.
  unfold is_completed. intros H.
  rewrite iscf_unfold in H.
  destruct (completed_field _is_completed s st) as [r1 st1] eqn:H1.
  destruct (completed_field_ext _ _ _ _ H1) as (c & -> & _ & _).
  destruct c; [|discriminate].
  destruct (errs s st1) as [r2 st2] eqn:H2.
  destruct (errors_ext _ _ _ _ H2) as (es & -> & _ & _).
  destruct es; [|discriminate].
  destruct (prev w (env st2) s) as [p|] eqn:Hp.
  - right. exists p.
    destruct (iscf_ext _ _ _ _ _ _ H) as (E & _ & _).
    rewrite E. split; [exact Hp|].
    apply (iscf_idem _ _ _ st2).
    apply (iscf_mono (List.length (values w))); [exact H | lia].
  - left. inversion H; subst. exact Hp.
Qed.

(** C2: [s.is_accessible()] returns true exactly when there is no previous
    active step or the previous active step's [is_completed()] returns true. *)
Theorem is_accessible_iff (w : WF_t) (s : @Step Cls) (st : ST) :
  fst (isa w s st) = Ok true <->
  prev w (env st) s = None \/
  exists p, prev w (env st) s = Some p /\ fst (isc w p st) = Ok true.
Proof.
  rewrite is_accessible_unfold.
  destruct (prev w (env st) s) as [p|]; simpl; split.
  - intros H; right; exists p; auto.
  - intros [H | (q & Hq & H)]; [discriminate | inversion Hq; subst; exact H].
  - intros _; left; reflexivity.
  - intros _; reflexivity.
Qed.

(** C10: [is_accessible()] does not look at the step's own [is_active()]:
    an inactive step with no previous active step, or whose previous
    active step is completed, is accessible. *)
Theorem is_accessible_ignores_own_activity (w : WF_t) (s : @Step Cls) (st : ST) :
  is_active (env st) s = false ->
  prev w (env st) s = None \/
  (exists p, prev w (env st) s = Some p /\ fst (isc w p st) = Ok true) ->
  fst (isa w s st) = Ok true.
Proof.
  intros _ [Hp | (p & Hp & Hc)]; rewrite is_accessible_unfold, Hp; auto.
Qed.

(** *** Memoisation *)

Lemma bind_keeps {A B} (m : @M Env Err_t A) (k : A -> @M Env Err_t B) :
  keeps_counted m -> (forall a, keeps_counted (k a)) -> keeps_counted (bind m k).
Proof.
  unfold keeps_counted, bind; intros Hm Hk st Hst.
  specialize (Hm st Hst). destruct (m st) as [[a|e] st'] eqn:E; simpl in *; auto.
Qed.

Lemma ret_keeps {A} (a : A) : keeps_counted (Env:=Env) (Err_t:=Err_t) (ret a).
Proof. unfold keeps_counted, ret; auto. Qed.

Lemma throw_keeps {A} e : keeps_counted (Env:=Env) (Err_t:=Err_t) (A:=A) (throw e).
Proof. unfold keeps_counted, throw; auto. Qed.

Lemma get_env_keeps : keeps_counted (Env:=Env) (Err_t:=Err_t) get_env.
Proof. unfold keeps_counted, get_env; auto. Qed.

Lemma completed_field_keeps (s : @Step Cls) :
  keeps_counted (Err_t:=Err_t) (completed_field _is_completed s).
Proof.
  unfold keeps_counted, completed_field; intros st Hst.
  destruct (memo_completed st (index s)) eqn:Hm; simpl; auto.
  intros j; unfold set_completed, upd; simpl.
  destruct (Hst j) as [Hc He]; split; auto.
  destruct (Nat.eqb j (index s)) eqn:E; auto.
  apply Nat.eqb_eq in E; subst. destruct (Hst (index s)) as [Hc' _].
  rewrite Hm in Hc'; rewrite Hc'; reflexivity.
Qed.

Lemma errors_keeps (s : @Step Cls) : keeps_counted (errs s).
Proof.
  unfold keeps_counted, errors; intros st Hst.
  destruct (memo_errors st (index s)) eqn:Hm; simpl; auto.
  intros j; unfold set_errors, upd; simpl.
  destruct (Hst j) as [Hc He]; split; auto.
  destruct (Nat.eqb j (index s)) eqn:E; auto.
  apply Nat.eqb_eq in E; subst. destruct (Hst (index s)) as [_ He'].
  rewrite Hm in He'; rewrite He'; reflexivity.
Qed.

#[local] Hint Resolve bind_keeps ret_keeps throw_keeps get_env_keeps
  completed_field_keeps errors_keeps : counted.

Lemma is_valid_keeps (s : @Step Cls) : keeps_counted (is_valid get_errors s).
Proof. unfold is_valid; auto with counted. Qed.
#[local] Hint Resolve is_valid_keeps : counted.

Lemma iscf_keeps n (w : WF_t) (s : @Step Cls) : keeps_counted (iscf n w s).
Proof.
  revert s; induction n as [|n IH]; intros s; simpl; auto with counted.
  apply bind_keeps; auto with counted; intros [|]; auto with counted.
  apply bind_keeps; auto with counted; intros [|]; auto with counted.
  apply bind_keeps; auto with counted; intros e.
  destruct (prev w e s); auto with counted.
Qed.
#[local] Hint Resolve iscf_keeps : counted.

Lemma isa_keeps (w : WF_t) (s : @Step Cls) : keeps_counted (isa w s).
Proof.
  unfold is_accessible, is_completed; apply bind_keeps; auto with counted.
  intros e; destruct (prev w e s); auto with counted.
Qed.
#[local] Hint Resolve isa_keeps : counted.

Lemma redirect_scan_keeps (w : WF_t) l cur :
  keeps_counted (redirect_scan is_active _is_completed get_errors w l cur).
Proof.
  induction l as [|t l IH]; simpl; auto with counted.
  apply bind_keeps; auto with counted; intros a.
  apply bind_keeps; auto with counted; intros e.
  destruct (a && is_active e t); auto with counted.
Qed.
#[local] Hint Resolve redirect_scan_keeps : counted.

Lemma dispatch_keeps (w : option WF_t) sl :
  keeps_counted (dispatch is_active _is_completed get_errors w sl).
Proof.
  unfold dispatch. destruct w as [w|], sl as [sl|]; auto with counted.
  apply bind_keeps.
  - destruct (od_get sl (steps w)) as [s|]; auto with counted.
    apply bind_keeps; auto with counted; intros e.
    destruct (is_active e s); auto with counted.
  - intros [|]; auto with counted.
Qed.

Lemma success_url_keeps (w : WF_t) s :
  keeps_counted (get_success_url view_name is_active get_errors w s).
Proof.
  unfold get_success_url. destruct s as [s|]; auto with counted.
  apply bind_keeps; auto with counted. intros [|x es]; auto with counted.
  apply bind_keeps; auto with counted. intros e.
  destruct (next_step is_active w e s); auto with counted.
Qed.

Lemma run_keeps (w : WF_t) ops (st : ST) :
  Counted st -> Counted (run view_name is_active _is_completed get_errors w ops st).
Proof.
  revert st; induction ops as [|o ops IH]; intros st Hst; simpl; auto.
  apply IH. destruct o; simpl.
  - apply iscf_keeps; exact Hst.
  - apply errors_keeps; exact Hst.
  - apply is_valid_keeps; exact Hst.
  - apply isa_keeps; exact Hst.
  - exact (bind_keeps _ _ get_env_keeps
             (fun e => ret_keeps (filter (is_active e) (values w))) st Hst).
  - exact (dispatch_keeps (Some w) sl st Hst).
  - exact (success_url_keeps w s st Hst).
  - intros i; apply (Hst i).
Qed.

Lemma fresh_counted (e : Env) : Counted (Err_t:=Err_t) (fresh e).
Proof. intros i; simpl; auto. Qed.

Lemma errors_idem (s : @Step Cls) (st st' : ST) r :
  errs s st = (r, st') -> errs s st' = (r, st').
Proof.
  intros H. destruct (errors_ext _ _ _ _ H) as (es & -> & _ & M).
  apply errors_memo; exact M.
Qed.

(** C7: on an unchanged step instance a repeated [is_completed()] or
    [errors] returns the same result and leaves the state as it was (no
    recomputation); over any sequence of calls on a workflow, also with the
    external state changing between them, [_is_completed] and [get_errors]
    each ran at most once on every instance. *)
Theorem memoized_at_most_once (w : WF_t) :
  (forall s (st st' : ST) r, isc w s st = (r, st') -> isc w s st' = (r, st')) /\
  (forall s (st st' : ST) r, errs s st = (r, st') -> errs s st' = (r, st')) /\
  (forall ops (e : Env) i,
     calls_completed (run view_name is_active _is_completed get_errors w ops (fresh e)) i <= 1 /\
     calls_errors (run view_name is_active _is_completed get_errors w ops (fresh e)) i <= 1).
Proof.
  split; [|split].
  - intros s st st' r; apply iscf_idem.
  - apply errors_idem.
  - intros ops e i.
    destruct (run_keeps w ops (fresh e) (fresh_counted e) i) as [Hc He].
    rewrite Hc, He.
    split; destruct (memo_completed _ i), (memo_errors _ i); auto.
Qed.

(** *** Scanning for the previous and next active step *)

Lemma find_first {A} (f : A -> bool) (l : list A) (x : A) :
  find f l = Some x <->
  exists pre post, l = pre ++ x :: post /\ f x = true /\ forall q, In q pre -> f q = false.
Proof.
  split.
  - induction l as [|y l IH]; simpl; [discriminate|].
    destruct (f y) eqn:Ey; intros H.
    + inversion H; subst. exists [], l. simpl. split; [reflexivity|]. split; [exact Ey|]. intros q [].
    + destruct (IH H) as (pre & post & -> & Hx & Hpre).
      exists (y :: pre), post. split; [reflexivity|]. split; [exact Hx|].
      intros q [<- | Hq]; auto.
  - intros (pre & post & -> & Hx & Hpre). induction pre as [|y pre IH]; simpl.
    + rewrite Hx; reflexivity.
    + rewrite (Hpre y (or_introl eq_refl)). apply IH.
      intros q Hq; apply Hpre; right; exact Hq.
Qed.

Lemma find_none_iff {A} (f : A -> bool) (l : list A) :
  find f l = None <-> forall q, In q l -> f q = false.
Proof.
  induction l as [|y l IH]; simpl; split; auto.
  - intros _ q [].
  - destruct (f y) eqn:Ey; [discriminate|].
    intros H q [<- | Hq]; [exact Ey | apply IH; auto].
  - intros H. rewrite (H y (or_introl eq_refl)). apply IH; auto.
Qed.

Lemma find_last {A} (f : A -> bool) (l : list A) (x : A) :
  find f (rev l) = Some x <->
  exists pre post, l = pre ++ x :: post /\ f x = true /\ forall q, In q post -> f q = false.
Proof.
  rewrite find_first. split.
  - intros (pre & post & H & Hx & Hpre).
    exists (rev post), (rev pre). split.
    + rewrite <- (rev_involutive l), H, rev_app_distr. simpl.
      rewrite <- app_assoc. reflexivity.
    + split; [exact Hx|]. intros q Hq; apply Hpre, in_rev, Hq.
  - intros (pre & post & -> & Hx & Hpost).
    exists (rev post), (rev pre). rewrite rev_app_distr; simpl; rewrite <- app_assoc.
    split; [reflexivity|]. split; [exact Hx|].
    intros q Hq; apply Hpost, in_rev, Hq.
Qed.

(** C4: [previous_step] is the last active step among the steps before
    position [index] (none when there is none, in particular at index 0);
    [next_step] is the first active step after position [index]; neither
    ever returns an inactive step. *)
Theorem previous_next_step_spec (w : WF_t) (e : Env) (s : @Step Cls) :
  (forall p, prev w e s = Some p <->
     exists pre post, firstn (index s) (values w) = pre ++ p :: post /\
       is_active e p = true /\ forall q, In q post -> is_active e q = false) /\
  (prev w e s = None <->
     forall q, In q (firstn (index s) (values w)) -> is_active e q = false) /\
  (index s = 0 -> prev w e s = None) /\
  (forall n, next_step is_active w e s = Some n <->
     exists pre post, skipn (S (index s)) (values w) = pre ++ n :: post /\
       is_active e n = true /\ forall q, In q pre -> is_active e q = false) /\
  (next_step is_active w e s = None <->
     forall q, In q (skipn (S (index s)) (values w)) -> is_active e q = false) /\
  (forall p, prev w e s = Some p -> is_active e p = true) /\
  (forall n, next_step is_active w e s = Some n -> is_active e n = true).
Proof.
  unfold previous_step, next_step.
  split; [|split; [|split; [|split; [|split; [|split]]]]].
  - intros p; apply find_last.
  - rewrite find_none_iff. split; intros H q Hq; apply H.
    + rewrite <- in_rev; exact Hq.
    + rewrite in_rev; exact Hq.
  - intros H0; rewrite H0; reflexivity.
  - intros n; apply find_first.
  - apply find_none_iff.
  - intros p Hp; apply find_last in Hp; destruct Hp as (_ & _ & _ & Hp & _); exact Hp.
  - intros n Hn; apply find_first in Hn; destruct Hn as (_ & _ & _ & Hn & _); exact Hn.
Qed.

(** C6: [active_steps] is the ordered filter of [steps.values()] by
    [is_active()] in the current external state, read afresh on each
    access: it sets no field, and after the external state changes the next
    access follows it. *)
Theorem active_steps_live (w : WF_t) (st : ST) (e' : Env) :
  active_steps is_active w st = (Ok (filter (is_active (env st)) (values w)), st) /\
  active_steps is_active w (set_env st e') =
    (Ok (filter (is_active e') (values w)), set_env st e').
Proof. split; reflexivity. Qed.

(** *** Construction *)

Lemma no_steps_key (kw : list (string * @value Cls Data)) :
  ~ In "steps" (map fst kw) ->
  existsb (fun '(k, _) => String.eqb k "steps") kw = false.
Proof.
  induction kw as [|[k v] kw IH]; simpl; intros H; [reflexivity|].
  destruct (String.eqb k "steps") eqn:E.
  - apply String.eqb_eq in E; subst; tauto.
  - apply IH; tauto.
Qed.

Lemma attr_lookup_set_other k k' (v : @value Cls Data) (a : attrs) :
  k <> k' -> attr_lookup k (attr_set k' v a) = attr_lookup k a.
Proof.
  intros Hk; induction a as [|[k'' v''] a IH]; simpl.
  - destruct (String.eqb k k') eqn:E; [apply String.eqb_eq in E; congruence | reflexivity].
  - destruct (String.eqb k' k'') eqn:E'; simpl.
    + apply String.eqb_eq in E'; subst.
      destruct (String.eqb k k'') eqn:E; [apply String.eqb_eq in E; congruence | reflexivity].
    + destruct (String.eqb k k''); [reflexivity | exact IH].
Qed.

Lemma attr_lookup_set_same k (v : @value Cls Data) (a : attrs) :
  attr_lookup k (attr_set k v a) = Some v.
Proof.
  induction a as [|[k' v'] a IH]; simpl.
  - rewrite String.eqb_refl; reflexivity.
  - destruct (String.eqb k k') eqn:E; simpl.
    + rewrite String.eqb_refl; reflexivity.
    + rewrite E; exact IH.
Qed.

Local Abbreviation wcls := (@workflow_class Cls Data step_classes).
Local Abbreviation setkw := (@set_kwargs Cls Data as_dict as_class).

Lemma setattr_plain k (v : @value Cls Data) (a : attrs) :
  ~ In k descriptor_names ->
  setattr as_dict as_class k v a wcls = Ok (attr_set k v a, wcls).
Proof.
  unfold descriptor_names, setattr; simpl; intros H.
  destruct (String.eqb_spec k "__class__"); [subst; exfalso; apply H; simpl; auto|].
  destruct (String.eqb_spec k "__dict__"); [subst; exfalso; apply H; simpl; auto|].
  destruct (String.eqb_spec k "__weakref__"); [subst; exfalso; apply H; simpl; auto|].
  destruct (String.eqb_spec k "active_steps"); [subst; exfalso; apply H; simpl; auto|].
  reflexivity.
Qed.

(** Keyword arguments that hit no data descriptor are stored in order. *)
Lemma set_kwargs_plain (kw : list (string * @value Cls Data)) (a : attrs) :
  (forall k, In k (map fst kw) -> ~ In k descriptor_names) ->
  exists a', setkw kw a wcls = (Ok tt, (a', wcls)) /\
    (forall k, ~ In k (map fst kw) -> attr_lookup k a' = attr_lookup k a) /\
    (NoDup (map fst kw) -> forall k v, In (k, v) kw -> attr_lookup k a' = Some v).
Proof.
  revert a; induction kw as [|[k v] kw IH]; intros a H.
  - exists a; split; [reflexivity|]. split; [reflexivity|]. intros _ k v [].
  - simpl. rewrite setattr_plain by (apply H; left; reflexivity).
    destruct (IH (attr_set k v a)) as (a' & Hs & Hl & Hin).
    { intros k' Hk'; apply H; right; exact Hk'. }
    exists a'. split; [exact Hs|]. split.
    + intros k' Hk'. simpl in Hk'. rewrite Hl by tauto.
      apply attr_lookup_set_other. intros ->; tauto.
    + intros Hnd k' v' [Heq | Hkv]; simpl in Hnd; inversion Hnd as [|? ? Hk Hnd']; subst.
      * inversion Heq; subst. rewrite Hl by exact Hk. apply attr_lookup_set_same.
      * exact (Hin Hnd' k' v' Hkv).
Qed.














(** C5: a keyword argument named "steps" makes [Workflow.__init__] raise
    [ValueError] before any attribute is set on the instance. *)
Theorem init_rejects_steps (kw : list (string * @value Cls Data)) (v : @value Cls Data) :
  In ("steps", v) kw ->
  Workflow_init slug step_classes include_in as_dict as_class iter_items kw = (Err ValueError, []).
Proof.
  intros H. unfold Workflow_init.
  replace (existsb _ kw) with true; [reflexivity|].
  symmetry; apply existsb_exists. exists ("steps", v); split; [exact H | reflexivity].
Qed.

(** *** The controller *)

(** C9: [get_success_url] goes to the current step's own location when its
    [errors] are non-empty; otherwise to the next active step's location,
    and with no next active step it raises [AttributeError]. *)
Theorem get_success_url_spec (w : WF_t) (s : @Step Cls) (st st1 : ST) es :
  errs s st = (Ok es, st1) ->
  (es <> [] ->
     get_success_url view_name is_active get_errors w (Some s) st =
       (Ok (view_name (step_cls s)), st1)) /\
  (es = [] -> next_step is_active w (env st) s = None ->
     fst (get_success_url view_name is_active get_errors w (Some s) st) = Err AttributeError) /\
  (es = [] -> forall n, next_step is_active w (env st) s = Some n ->
     fst (get_success_url view_name is_active get_errors w (Some s) st) =
       Ok (view_name (step_cls n))).
Proof.
  intros H. destruct (errors_ext _ _ _ _ H) as (_ & _ & (E & _ & _) & _).
  unfold get_success_url; unfold_m. rewrite H.
  destruct es as [|x es].
  - split; [intros C; congruence|]. split.
    + intros _ Hn; rewrite E, Hn; reflexivity.
    + intros _ n Hn; rewrite E, Hn; reflexivity.
  - split; [intros _; reflexivity|]. split; intros C; discriminate.
Qed.

(** *** Memo fields that agree with the external state *)

Local Abbreviation cval := (@completed_val Cls Data Env Err_t is_active _is_completed get_errors).
Local Abbreviation acc := (@accessible_b Cls Data Env Err_t is_active _is_completed get_errors).
Local Abbreviation cons_st := (@Consistent Cls Data Env Err_t _is_completed get_errors).

Lemma NoDup_map_inj {A B} (f : A -> B) (l : list A) x y :
  NoDup (map f l) -> In x l -> In y l -> f x = f y -> x = y.
Proof.
  induction l as [|z l IH]; simpl; intros Hnd Hx Hy Hf; [contradiction|].
  inversion Hnd as [|? ? Hz Hnd']; subst.
  destruct Hx as [<- | Hx], Hy as [<- | Hy]; auto.
  - exfalso; apply Hz; rewrite Hf; apply in_map; exact Hy.
  - exfalso; apply Hz; rewrite <- Hf; apply in_map; exact Hx.
Qed.

Lemma WF_NoDup (w : WF_t) : WF w -> NoDup (map index (values w)).
Proof. unfold WF; intros ->; apply seq_NoDup. Qed.

Lemma WF_index (w : WF_t) j q : WF w -> nth_error (values w) j = Some q -> index q = j.
Proof.
  unfold WF; intros Hwf Hq.
  apply (map_nth_error index) in Hq. rewrite Hwf, nth_error_seq in Hq.
  destruct (Nat.ltb j _); inversion Hq; reflexivity.
Qed.

Lemma WF_bound (w : WF_t) q : WF w -> In q (values w) -> index q < List.length (values w).
Proof.
  unfold WF; intros Hwf Hq. apply (in_map index) in Hq. rewrite Hwf, in_seq in Hq. lia.
Qed.

Lemma prev_in (w : WF_t) e s p : prev w e s = Some p -> In p (values w).
Proof.
  unfold previous_step; intros H. apply find_some in H. destruct H as [H _].
  apply in_rev in H. rewrite <- (firstn_skipn (index s) (values w)).
  apply in_or_app; left; exact H.
Qed.

Lemma prev_lt (w : WF_t) e s p : WF w -> prev w e s = Some p -> index p < index s.
Proof.
  intros Hwf H. unfold previous_step in H. apply find_last in H.
  destruct H as (pre & post & Hf & _ & _).
  assert (Hv : values w = pre ++ p :: (post ++ skipn (index s) (values w))).
  { rewrite <- (firstn_skipn (index s) (values w)) at 1. rewrite Hf, <- app_assoc. reflexivity. }
  assert (Hn : nth_error (values w) (List.length pre) = Some p).
  { rewrite Hv, nth_error_app2 by lia. rewrite Nat.sub_diag. reflexivity. }
  rewrite (WF_index _ _ _ Hwf Hn).
  pose proof (firstn_le_length (index s) (values w)) as Hl.
  rewrite Hf, length_app in Hl. simpl in Hl. lia.
Qed.

Lemma completed_field_cons (w : WF_t) s (st st' : ST) r :
  NoDup (map index (values w)) -> cons_st w st -> In s (values w) ->
  completed_field _is_completed s st = (r, st') ->
  r = Ok (_is_completed (env st) s) /\ cons_st w st' /\ env st' = env st.
Proof.
  intros Hnd Hc Hs. unfold completed_field.
  destruct (memo_completed st (index s)) as [b|] eqn:Hm; intros H; inversion H; subst; clear H.
  - destruct (Hc s Hs) as [Hb _]. rewrite (Hb b Hm). auto.
  - split; [reflexivity|]. split; [|reflexivity].
    intros s' Hs'. destruct (Hc s' Hs') as [Hb He]. unfold set_completed, upd; simpl.
    split; [|exact He].
    intros b. destruct (Nat.eqb (index s') (index s)) eqn:E; [|apply Hb].
    apply Nat.eqb_eq in E. rewrite (NoDup_map_inj _ _ _ _ Hnd Hs' Hs E).
    intros Hb'; inversion Hb'; reflexivity.
Qed.

Lemma errors_cons (w : WF_t) s (st st' : ST) r :
  NoDup (map index (values w)) -> cons_st w st -> In s (values w) ->
  errs s st = (r, st') ->
  r = Ok (get_errors (env st) s) /\ cons_st w st' /\ env st' = env st.
Proof.
  intros Hnd Hc Hs. unfold errors.
  destruct (memo_errors st (index s)) as [es|] eqn:Hm; intros H; inversion H; subst; clear H.
  - destruct (Hc s Hs) as [_ He]. rewrite (He es Hm). auto.
  - split; [reflexivity|]. split; [|reflexivity].
    intros s' Hs'. destruct (Hc s' Hs') as [Hb He]. unfold set_errors, upd; simpl.
    split; [exact Hb|].
    intros es. destruct (Nat.eqb (index s') (index s)) eqn:E; [|apply He].
    apply Nat.eqb_eq in E. rewrite (NoDup_map_inj _ _ _ _ Hnd Hs' Hs E).
    intros He'; inversion He'; reflexivity.
Qed.

(** On a consistent state, [is_completed] computes [completed_val]. *)
Lemma iscf_cons n (w : WF_t) s (st st' : ST) r :
  NoDup (map index (values w)) -> cons_st w st -> In s (values w) ->
  iscf n w s st = (r, st') ->
  r = match cval n w (env st) s with Some b => Ok b | None => Err RecursionError end /\
  cons_st w st' /\ env st' = env st.
Proof.
  intros Hnd; revert s st st' r; induction n as [|n IH]; intros s st st' r Hc Hs H.
  - simpl in H; unfold_m; inversion H; subst; auto.
  - rewrite iscf_unfold in H. simpl.
    destruct (completed_field _is_completed s st) as [r1 st1] eqn:H1.
    destruct (completed_field_cons _ _ _ _ _ Hnd Hc Hs H1) as (-> & Hc1 & E1).
    destruct (_is_completed (env st) s); [|inversion H; subst; auto].
    destruct (errs s st1) as [r2 st2] eqn:H2.
    destruct (errors_cons _ _ _ _ _ Hnd Hc1 Hs H2) as (-> & Hc2 & E2).
    rewrite E1 in E2, H.
    destruct (get_errors (env st) s); [|inversion H; subst; auto].
    rewrite E2 in H.
    destruct (prev w (env st) s) as [p|] eqn:Hp; [|inversion H; subst; auto].
    destruct (IH p st2 st' r Hc2 (prev_in _ _ _ _ Hp) H) as (Hr & Hc3 & E3).
    rewrite E2 in Hr. split; [exact Hr|]. split; [exact Hc3|]. congruence.
Qed.

Lemma cval_defined (w : WF_t) e : WF w ->
  forall n s, index s < n -> exists b, cval n w e s = Some b.
Proof.
  intros Hwf n; induction n as [|n IH]; intros s Hs; [lia|]. simpl.
  destruct (_is_completed e s); [|eauto].
  destruct (get_errors e s); [|eauto].
  destruct (prev w e s) as [p|] eqn:Hp; [|eauto].
  apply IH. pose proof (prev_lt _ _ _ _ Hwf Hp). lia.
Qed.

Lemma isa_cons (w : WF_t) s (st st' : ST) r :
  WF w -> cons_st w st ->
  isa w s st = (r, st') ->
  r = Ok (acc w (env st) s) /\ cons_st w st' /\ env st' = env st.
Proof.
  intros Hwf Hc H. rewrite is_accessible_unfold in H.
  unfold accessible_b, accessible_val.
  destruct (prev w (env st) s) as [p|] eqn:Hp; [|inversion H; subst; auto].
  pose proof (prev_in _ _ _ _ Hp) as Hin.
  destruct (iscf_cons _ _ _ _ _ _ (WF_NoDup _ Hwf) Hc Hin H) as (Hr & Hc' & E).
  destruct (cval_defined w (env st) Hwf (S (List.length (values w))) p) as [b Hb].
  { pose proof (WF_bound _ _ Hwf Hin); lia. }
  rewrite Hb in Hr |- *. auto.
Qed.

Lemma redirect_scan_cons (w : WF_t) l cur (st st' : ST) r :
  WF w -> cons_st w st ->
  redirect_scan is_active _is_completed get_errors w l cur st = (r, st') ->
  r = Ok (match find (fun t => acc w (env st) t && is_active (env st) t) l with
          | Some t => Redirect t
          | None => Proceed cur
          end).
Proof.
  intros Hwf; revert st st' r; induction l as [|t l IH]; intros st st' r Hc H.
  - simpl in H; unfold_m; inversion H; reflexivity.
  - simpl in H |- *; unfold_m.
    destruct (isa w t st) as [r1 st1] eqn:H1.
    destruct (isa_cons _ _ _ _ _ Hwf Hc H1) as (-> & Hc1 & E1).
    rewrite E1 in H.
    destruct (acc w (env st) t && is_active (env st) t).
    + inversion H; reflexivity.
    + rewrite (IH _ _ _ Hc1 H), E1. reflexivity.
Qed.

Lemma od_get_in sl (d : list (string * @Step Cls)) s :
  od_get sl d = Some s -> In s (map snd d).
Proof.
  induction d as [|[k v] d IH]; simpl; [discriminate|].
  destruct (String.eqb sl k); [intros H; inversion H; auto | intros H; right; auto].
Qed.

Local Abbreviation scan := (@redirect_scan Cls Data Env Err_t is_active _is_completed get_errors).
Local Abbreviation req_ok := (@requested_ok Cls Data Env Err_t is_active _is_completed get_errors).
Local Abbreviation disp := (@dispatch Cls Data Env Err_t is_active _is_completed get_errors).

Lemma scan_last (w : WF_t) cur (st : ST) pre t post :
  WF w -> cons_st w st -> values w = pre ++ t :: post ->
  acc w (env st) t && is_active (env st) t = true ->
  (forall u, In u post -> acc w (env st) u && is_active (env st) u = false) ->
  fst (scan w (rev (values w)) cur st) = Ok (Redirect t).
Proof.
  intros Hwf Hc Hv Ht Hpost.
  destruct (scan w (rev (values w)) cur st) as [r st'] eqn:H.
  rewrite (redirect_scan_cons _ _ _ _ _ _ Hwf Hc H).
  replace (find _ (rev (values w))) with (Some t); [reflexivity|].
  symmetry. apply find_last. exists pre, post. auto.
Qed.

(** ** Further properties of the workflow *)

Lemma firstn_prefix {A} (pre post : list A) : firstn (List.length pre) (pre ++ post) = pre.
Proof. rewrite firstn_app, firstn_all, Nat.sub_diag; simpl; apply app_nil_r. Qed.

Lemma skipn_prefix {A} (pre post : list A) (x : A) :
  skipn (S (List.length pre)) (pre ++ x :: post) = post.
Proof. induction pre as [|y pre IH]; simpl; [reflexivity | exact IH]. Qed.

Lemma find_hd_filter {A} (f : A -> bool) (l : list A) : find f l = hd_error (filter f l).
Proof. induction l as [|y l IH]; simpl; [reflexivity|]. destruct (f y); [reflexivity | exact IH]. Qed.

Lemma WF_split (w : WF_t) pre s post :
  WF w -> values w = pre ++ s :: post -> index s = List.length pre.
Proof.
  intros Hwf Hv. apply (WF_index w _ s Hwf).
  rewrite Hv, nth_error_app2 by lia. rewrite Nat.sub_diag. reflexivity.
Qed.

Lemma prev_split (w : WF_t) e s p : WF w -> prev w e s = Some p ->
  exists pre post, firstn (index s) (values w) = pre ++ p :: post /\
    pre = firstn (index p) (values w) /\ forall q, In q post -> is_active e q = false.
Proof.
  intros Hwf H. unfold previous_step in H. apply find_last in H.
  destruct H as (pre & post & Hf & _ & Hpost).
  exists pre, post. split; [exact Hf|]. split; [|exact Hpost].
  assert (Hv : values w = pre ++ p :: (post ++ skipn (index s) (values w))).
  { rewrite <- (firstn_skipn (index s) (values w)) at 1. rewrite Hf, <- app_assoc. reflexivity. }
  rewrite (WF_split _ _ _ _ Hwf Hv), Hv. symmetry; apply firstn_prefix.
Qed.

Lemma cval_true_prefix (w : WF_t) e : WF w ->
  forall n s, cval n w e s = Some true ->
  (_is_completed e s = true /\ get_errors e s = []) /\
  forall q, In q (firstn (index s) (values w)) -> is_active e q = true ->
    _is_completed e q = true /\ get_errors e q = [].
Proof.
  intros Hwf n; induction n as [|n IH]; intros s H; simpl in H; [discriminate|].
  destruct (_is_completed e s) eqn:Hr; [|discriminate].
  destruct (get_errors e s) eqn:He; [|discriminate].
  split; [auto|].
  destruct (prev w e s) as [p|] eqn:Hp.
  - destruct (IH p H) as [Hp1 Hp2].
    destruct (prev_split _ _ _ _ Hwf Hp) as (pre & post & Hf & Hpre & Hpost).
    intros q Hq Hact. rewrite Hf in Hq. apply in_app_or in Hq.
    destruct Hq as [Hq | [<- | Hq]].
    + apply Hp2; [rewrite <- Hpre; exact Hq | exact Hact].
    + exact Hp1.
    + rewrite (Hpost q Hq) in Hact; discriminate.
  - unfold previous_step in Hp. rewrite find_none_iff in Hp.
    intros q Hq Hact. rewrite (Hp q) in Hact; [discriminate|].
    rewrite <- in_rev; exact Hq.
Qed.

(** [is_completed] returning [True] for a step of a workflow built for the
    request means that the step and every active step before it in
    [steps] are completed (their [_is_completed] holds) and valid (their
    [get_errors] is empty). *)
Theorem is_completed_whole_prefix (w : WF_t) s (st st' : ST) :
  WF w -> cons_st w st -> In s (values w) ->
  isc w s st = (Ok true, st') ->
  (_is_completed (env st) s = true /\ get_errors (env st) s = []) /\
  forall q, In q (firstn (index s) (values w)) -> is_active (env st) q = true ->
    _is_completed (env st) q = true /\ get_errors (env st) q = [].
Proof.
  intros Hwf Hc Hs H. unfold is_completed in H.
  destruct (iscf_cons _ _ _ _ _ _ (WF_NoDup _ Hwf) Hc Hs H) as (Hr & _ & _).
  destruct (cval _ w (env st) s) as [b|] eqn:Hv; inversion Hr; subst.
  exact (cval_true_prefix _ _ Hwf _ _ Hv).
Qed.

(** On a workflow whose indices are the positions of its steps, each
    nested call of [is_completed] is on a step with a smaller index, so
    the call on the step at position [i] nests at most [i + 1] calls of
    [is_completed]: with room for more than [i] nested calls it returns a
    value, in every state, whatever the memo fields hold. *)
Theorem is_completed_depth_bound (w : WF_t) : WF w ->
  forall n s (st : ST), index s < n -> exists b st', iscf n w s st = (Ok b, st').
Proof.
  intros Hwf n; induction n as [|n IH]; intros s st Hs; [lia|].
  rewrite iscf_unfold.
  destruct (completed_field _is_completed s st) as [r1 st1] eqn:H1.
  destruct (completed_field_ext _ _ _ _ H1) as (c & -> & _ & _).
  destruct c; [|eauto].
  destruct (errs s st1) as [r2 st2] eqn:H2.
  destruct (errors_ext _ _ _ _ H2) as (es & -> & _ & _).
  destruct es; [|eauto].
  destruct (prev w (env st2) s) as [p|] eqn:Hp; [|eauto].
  apply IH. pose proof (prev_lt _ _ _ _ Hwf Hp). lia.
Qed.

Lemma dispatch_result (w : WF_t) sl (st : ST) :
  WF w -> cons_st w st ->
  fst (disp (Some w) (Some sl) st) =
  Ok (if req_ok w (env st) (od_get sl (steps w)) then Proceed (od_get sl (steps w))
      else match find (fun t => acc w (env st) t && is_active (env st) t) (rev (values w)) with
           | Some t => Redirect t
           | None => Proceed (od_get sl (steps w))
           end).
Proof.
  intros Hwf Hc. unfold dispatch, requested_ok, bind, ret, get_env.
  destruct (od_get sl (steps w)) as [s|] eqn:Hg.
  - destruct (is_active (env st) s) eqn:Ha.
    + destruct (isa w s st) as [r1 st1] eqn:H1.
      destruct (isa_cons _ _ _ _ _ Hwf Hc H1) as (-> & Hc1 & E1).
      destruct (acc w (env st) s); simpl; [reflexivity|].
      destruct (scan w (rev (values w)) (Some s) st1) as [r st'] eqn:Hs.
      rewrite (redirect_scan_cons _ _ _ _ _ _ Hwf Hc1 Hs), E1. reflexivity.
    + simpl. destruct (scan w (rev (values w)) (Some s) st) as [r st'] eqn:Hs.
      rewrite (redirect_scan_cons _ _ _ _ _ _ Hwf Hc Hs). reflexivity.
  - simpl. destruct (scan w (rev (values w)) None st) as [r st'] eqn:Hs.
    rewrite (redirect_scan_cons _ _ _ _ _ _ Hwf Hc Hs). reflexivity.
Qed.

(** The first active step has no active step before it, so
    [is_accessible] returns [True] on it at once. *)
Lemma first_active_accessible (w : WF_t) (st : ST) f :
  WF w -> find (is_active (env st)) (values w) = Some f ->
  isa w f st = (Ok true, st) /\ acc w (env st) f = true.
Proof.
  intros Hwf Hf. apply find_first in Hf. destruct Hf as (pre & post & Hv & _ & Hpre).
  assert (Hp : prev w (env st) f = None).
  { unfold previous_step. rewrite (WF_split _ _ _ _ Hwf Hv), Hv, firstn_prefix.
    apply find_none_iff. intros u Hu; apply Hpre; rewrite in_rev; exact Hu. }
  rewrite is_accessible_unfold, Hp. unfold accessible_b, accessible_val. rewrite Hp. auto.
Qed.


(** On a workflow built for the request, a step [dispatch] redirects to
    is one of the workflow's steps, and it is active and accessible in the
    current external state. *)
Theorem dispatch_redirect_target_valid (w : WF_t) sl (st : ST) t :
  WF w -> cons_st w st ->
  fst (disp (Some w) (Some sl) st) = Ok (Redirect t) ->
  In t (values w) /\ is_active (env st) t = true /\ acc w (env st) t = true.
Proof.
  intros Hwf Hc H. rewrite (dispatch_result _ _ _ Hwf Hc) in H.
  destruct (req_ok w (env st) (od_get sl (steps w))); [discriminate|].
  destruct (find _ (rev (values w))) as [u|] eqn:Hf; inversion H; subst.
  apply find_some in Hf. destruct Hf as [Hin Hu]. apply andb_true_iff in Hu.
  split; [rewrite in_rev; exact Hin | tauto].
Qed.

(** On a workflow built for the request, the first active step is
    accessible ([is_accessible] returns [True] without a call of
    [is_completed]); so when the requested step is missing, inactive or
    inaccessible and some step is active, a [dispatch] that returns
    redirects. *)
Theorem dispatch_redirects_when_some_active (w : WF_t) sl (st : ST) q :
  WF w -> cons_st w st -> In q (values w) -> is_active (env st) q = true ->
  req_ok w (env st) (od_get sl (steps w)) = false ->
  (exists f, find (is_active (env st)) (values w) = Some f /\ isa w f st = (Ok true, st)) /\
  (forall r st', disp (Some w) (Some sl) st = (Ok r, st') -> exists t, r = Redirect t).
Proof.
  intros Hwf Hc Hq Hqa Hreq.
  destruct (find (is_active (env st)) (values w)) as [f|] eqn:Hf.
  2:{ rewrite find_none_iff in Hf. rewrite (Hf q Hq) in Hqa; discriminate. }
  destruct (first_active_accessible _ _ _ Hwf Hf) as [Hisa Hacc].
  split; [exists f; auto|].
  intros r st' Hd. pose proof (dispatch_result w sl st Hwf Hc) as Hr.
  rewrite Hd, Hreq in Hr. simpl in Hr.
  destruct (find _ (rev (values w))) as [t|] eqn:Ht; [inversion Hr; eauto|].
  rewrite find_none_iff in Ht. exfalso.
  pose proof (find_some _ _ Hf) as [Hin Hfa].
  assert (Hin' : In f (rev (values w))) by (rewrite <- in_rev; exact Hin).
  specialize (Ht f Hin'). rewrite Hacc, Hfa in Ht. discriminate.
Qed.

(** For an active step at position [List.length pre] of a workflow whose
    indices are positions, [active_steps] lists it between the active
    steps before and after it, [previous_step] is the last active step
    before it and [next_step] the first active step after it: the two are
    its neighbours in [active_steps]. *)
Theorem active_steps_neighbours (w : WF_t) pre s post (st : ST) :
  WF w -> values w = pre ++ s :: post -> is_active (env st) s = true ->
  active_steps is_active w st =
    (Ok (filter (is_active (env st)) pre ++ s :: filter (is_active (env st)) post), st) /\
  prev w (env st) s = hd_error (rev (filter (is_active (env st)) pre)) /\
  next_step is_active w (env st) s = hd_error (filter (is_active (env st)) post).
Proof.
  intros Hwf Hv Ha. pose proof (WF_split _ _ _ _ Hwf Hv) as Hi.
  split; [|split].
  - unfold active_steps, bind, get_env, ret. rewrite Hv, filter_app. simpl. rewrite Ha. reflexivity.
  - unfold previous_step. rewrite Hi, Hv, firstn_prefix, find_hd_filter, filter_rev. reflexivity.
  - unfold next_step. rewrite Hi, Hv, skipn_prefix, find_hd_filter. reflexivity.
Qed.

Lemma set_kwargs_active_steps (kw : list (string * @value Cls Data)) (a : attrs) :
  ~ In "__class__" (map fst kw) -> ~ In "__dict__" (map fst kw) ->
  In "active_steps" (map fst kw) -> fst (setkw kw a wcls) = Err AttributeError.
Proof.
  revert a; induction kw as [|[k v] kw IH]; intros a Hc Hd H; simpl in *; [contradiction|].
  unfold setattr; simpl.
  destruct (String.eqb_spec k "__class__"); [subst; tauto|].
  destruct (String.eqb_spec k "__dict__"); [subst; tauto|].
  destruct (String.eqb_spec k "__weakref__"); [reflexivity|].
  destruct (String.eqb_spec k "active_steps"); [reflexivity|].
  simpl. apply IH; [tauto | tauto |].
  destruct H as [H|H]; [congruence | exact H].
Qed.

(** Without a "steps", "__class__" or "__dict__" keyword argument, an
    "active_steps" keyword argument makes [Workflow.__init__] raise
    [AttributeError]: the read-only property cannot be set (nor can
    [__weakref__], should it come first). *)
Theorem init_active_steps_kwarg_fails (kw : list (string * @value Cls Data)) :
  ~ In "steps" (map fst kw) -> ~ In "__class__" (map fst kw) -> ~ In "__dict__" (map fst kw) ->
  In "active_steps" (map fst kw) ->
  fst (Workflow_init slug step_classes include_in as_dict as_class iter_items kw) = Err AttributeError.
Proof.
  intros Hs Hc Hd Ha. unfold Workflow_init. rewrite no_steps_key by exact Hs.
  pose proof (set_kwargs_active_steps kw [] Hc Hd Ha) as H.
  destruct (setkw kw [] wcls) as [r [a c]]; simpl in *; subst; reflexivity.
Qed.

Lemma classes_of_err (items : list (option Cls)) e :
  classes_of items = Err e -> e = AttributeError.
Proof.
  induction items as [|[c|] items IH]; simpl; intros H; [discriminate | | congruence].
  destruct (classes_of items); [discriminate | auto].
Qed.

(** With distinct keyword names, none of them "steps" or a data
    descriptor of [Workflow], a "step_classes" keyword argument replaces
    the class attribute: a list of classes builds the steps from it; a
    datum that is not iterable raises [TypeError]; an iterable with an
    item that has no [include_in] raises [AttributeError]; an iterable of
    step classes (an empty one included) builds the steps from its
    items. *)
Theorem init_step_classes_kwarg (kw : list (string * @value Cls Data)) v :
  NoDup (map fst kw) -> ~ In "steps" (map fst kw) ->
  (forall k, In k (map fst kw) -> ~ In k descriptor_names) ->
  In ("step_classes", v) kw ->
  let a := fst (snd (setkw kw [] wcls)) in
  Workflow_init slug step_classes include_in as_dict as_class iter_items kw =
  match v with
  | VClasses l => (Ok (mkWorkflow a (build_steps slug include_in a l)), a)
  | VData d =>
      match iter_items d with
      | None => (Err TypeError, a)
      | Some items =>
          match classes_of items with
          | Ok l => (Ok (mkWorkflow a (build_steps slug include_in a l)), a)
          | Err _ => (Err AttributeError, a)
          end
      end
  end.
Proof.
  cbv zeta. intros Hnd Hs Hd Hin.
  destruct (set_kwargs_plain kw [] Hd) as (a & Hset & _ & Hl).
  unfold Workflow_init. rewrite no_steps_key by exact Hs. rewrite Hset. simpl fst.
  unfold get_step_classes. rewrite (Hl Hnd _ _ Hin).
  destruct v as [l|d]; simpl; [reflexivity|].
  destruct (iter_items d) as [items|]; [|reflexivity].
  destruct (classes_of items) as [l|e] eqn:E; [reflexivity|].
  rewrite (classes_of_err _ _ E). reflexivity.
Qed.

End Proofs.

(** * Properties of the helpers of the views *)

Section HelperProofs.

Local Open Scope list_scope.

Lemma dict_get_notin {V} k (d : list (string * V)) : ~ In k (map fst d) -> dict_get k d = None.
Proof.
  induction d as [|[k' v] d IH]; simpl; intros H; [reflexivity|].
  destruct (String.eqb k k') eqn:E; [apply String.eqb_eq in E; subst; tauto | apply IH; tauto].
Qed.

Lemma clean_keys {V} (kw : list (string * option V)) k :
  In k (map fst (_clean_kwargs kw)) -> In k (map fst kw).
Proof.
  unfold _clean_kwargs. rewrite !in_map_iff. intros (x & Hx & Hin).
  apply filter_In in Hin. exists x; tauto.
Qed.

(** [_clean_kwargs] keeps exactly the keyword arguments whose value is not
    [None], with their values: on a dict (distinct keys), looking a key up
    in the result gives its value when that is not [None] and nothing
    otherwise, and no [None] value is left. *)
Theorem clean_kwargs_spec {V} (kwargs : list (string * option V)) :
  NoDup (map fst kwargs) ->
  (forall k, dict_get k (_clean_kwargs kwargs) =
     match dict_get k kwargs with Some (Some v) => Some (Some v) | _ => None end) /\
  (forall k v, In (k, v) (_clean_kwargs kwargs) -> v <> None).
Proof.
  intros Hnd. split.
  - induction kwargs as [|[k' v'] kw IH]; intros k; [reflexivity|].
    simpl in Hnd. inversion Hnd as [|? ? Hk Hnd']; subst.
    destruct v' as [x|].
    + change (_clean_kwargs ((k', Some x) :: kw)) with ((k', Some x) :: _clean_kwargs kw).
      simpl. destruct (String.eqb k k'); [reflexivity | apply IH; exact Hnd'].
    + change (_clean_kwargs ((k', None) :: kw)) with (_clean_kwargs kw).
      simpl. destruct (String.eqb k k') eqn:E; [|apply IH; exact Hnd'].
      apply String.eqb_eq in E; subst. apply dict_get_notin.
      intros Hin; apply Hk, (clean_keys kw), Hin.
  - unfold _clean_kwargs. intros k v Hin. apply filter_In in Hin.
    destruct Hin as [_ Hv]. destruct v; [discriminate | discriminate].
Qed.

Lemma prefix_app_iff (u p : string) : String.prefix u p = true <-> exists r, p = (u ++ r)%string.
Proof.
  revert p; induction u as [|a u IH]; intros p; destruct p as [|b p]; simpl.
  - split; [intros _; exists EmptyString; reflexivity | reflexivity].
  - split; [intros _; exists (String b p); reflexivity | reflexivity].
  - split; [discriminate | intros [r H]; discriminate].
  - destruct (Ascii.ascii_dec a b) as [->|Hne].
    + rewrite IH. split; intros [r H]; exists r; [congruence | injection H; auto].
    + split; [discriminate | intros [r H]; injection H; intros; congruence].
Qed.

Context {Req Event User Resp Exn : Type}.
Variable request_path : Req -> string.
Variable request_user : Req -> User.
Variable editable_by : Event -> User -> bool.
Variable event_slug organization_slug : Event -> string.
Variable reverse : string -> list (string * string) -> string.
Variable Http404 : Exn.
Variable is_ajax : Req -> bool.
Variable HttpResponseRedirect : string -> Resp.

Local Abbreviation gean := (@get_event_admin_nav Req Event User request_user editable_by
                                event_slug organization_slug reverse).
Local Abbreviation ajax := (@ajax_required Req Resp Exn Http404 is_ajax).

(** [NavItem.is_active] holds exactly when the request's path is the
    item's URL followed by some (possibly empty) rest. *)
Theorem NavItem_is_active_iff (n : @NavItem Req) :
  NavItem_is_active request_path n = true <->
  exists r, request_path (nav_request n) = (nav_url n ++ r)%string.
Proof using. apply prefix_app_iff. Qed.

(** [ajax_required view] is [split_view] on [is_ajax] between [view] and
    raising [Http404]; for a request that is not an AJAX request it raises
    [Http404] whatever the view (the view never runs); and wrapping twice
    is the same as wrapping once. *)
Theorem ajax_required_spec (view : Req -> Resp + Exn) :
  (forall request, ajax view request = split_view is_ajax view (fun _ => inr Http404) request) /\
  (forall view' request, is_ajax request = false -> ajax view request = ajax view' request) /\
  (forall request, ajax (ajax view) request = ajax view request).
Proof using.
  unfold ajax_required, split_view. split; [|split].
  - intros request. destruct (is_ajax request); reflexivity.
  - intros view' request H. rewrite H. reflexivity.
  - intros request. destruct (is_ajax request); reflexivity.
Qed.

(** [split_view] with the same view on both sides is that view; swapping
    the views negates the test; nesting a [split_view] in the true branch
    with the same false branch conjoins the tests; and [route_view] is
    [split_view] between the two redirects. *)
Theorem split_view_laws {R : Type} (test test' : Req -> bool) (v1 v2 : Req -> R)
    (if_true if_false : string) (request : Req) :
  split_view test v1 v1 request = v1 request /\
  split_view (fun r => negb (test r)) v2 v1 request = split_view test v1 v2 request /\
  split_view test (split_view test' v1 v2) v2 request =
    split_view (fun r => test r && test' r) v1 v2 request /\
  route_view HttpResponseRedirect test if_true if_false request =
    split_view test (fun _ => inl (HttpResponseRedirect if_true))
                    (fun _ => @inl Resp Exn (HttpResponseRedirect if_false)) request.
Proof using.
  unfold split_view, route_view.
  destruct (test request), (test' request); repeat split; reflexivity.
Qed.

End HelperProofs.

Section Carts.

Context {Event : Type}.
Variable RESERVED : string.
Variable event_pk : Event -> nat.
Variable cart_timeout : Event -> Z.

Local Abbreviation clear := (@clear_expired_carts Event RESERVED event_pk cart_timeout).

Lemma expired_match_false (event : Event) eb (b : @BoughtItem) :
  expired_match RESERVED event_pk event eb b = false <->
  status b <> RESERVED \/ order_event (order b) <> event_pk event \/
  cart_start_time (order b) = None \/
  exists t, cart_start_time (order b) = Some t /\ (eb < t)%Z.
Proof.
  unfold expired_match.
  destruct (String.eqb_spec (status b) RESERVED) as [Hs|Hs];
  destruct (Nat.eqb_spec (order_event (order b)) (event_pk event)) as [Ho|Ho];
  destruct (cart_start_time (order b)) as [t|]; simpl;
  try (split; [intros _; tauto | reflexivity]).
  destruct (Z.leb_spec t eb) as [Hl|Hl]; split.
  - discriminate.
  - intros [H|[H|[H|(t' & Ht & Hlt)]]]; try tauto; [discriminate | injection Ht as <-; lia].
  - intros _; right; right; right; exists t; split; [reflexivity | lia].
  - reflexivity.
Qed.

Lemma clear_kept (now : Z) event db b :
  In b (clear now event db) <->
  In b db /\
  (status b <> RESERVED \/ order_event (order b) <> event_pk event \/
   cart_start_time (order b) = None \/
   exists t, cart_start_time (order b) = Some t /\ (now - cart_timeout event * 60000000 < t)%Z).
Proof.
  unfold clear_expired_carts. rewrite filter_In, negb_true_iff, expired_match_false. reflexivity.
Qed.

(** [clear_expired_carts] keeps, in order, exactly the bought items that
    are not reserved, belong to another event, have no cart start time, or
    whose cart started after [now] minus the event's timeout; running it a
    second time at the same instant deletes nothing more. *)
Theorem clear_expired_carts_spec (now : Z) (event : Event) (db : list BoughtItem) :
  (forall b, In b (clear now event db) <->
     In b db /\
     (status b <> RESERVED \/ order_event (order b) <> event_pk event \/
      cart_start_time (order b) = None \/
      exists t, cart_start_time (order b) = Some t /\ (now - cart_timeout event * 60000000 < t)%Z)) /\
  clear now event (clear now event db) = clear now event db.
Proof.
  split; [apply clear_kept|].
  unfold clear_expired_carts. induction db as [|b db IH]; simpl; [reflexivity|].
  destruct (negb _) eqn:E; simpl; [rewrite E; f_equal|]; exact IH.
Qed.

(** A later clearing deletes at least what an earlier one deletes: every
    bought item that survives a clearing at [now2] also survives one at an
    earlier [now1]. *)
Theorem clear_expired_carts_monotone (now1 now2 : Z) (event : Event) (db : list BoughtItem) :
  (now1 <= now2)%Z -> incl (clear now2 event db) (clear now1 event db).
Proof.
  intros Hle b. rewrite !clear_kept. intros [Hin Hk]. split; [exact Hin|].
  destruct Hk as [H|[H|[H|(t & Ht & Hlt)]]]; auto.
  right; right; right. exists t. split; [exact Ht | lia].
Qed.

End Carts.

(** * Witnesses and counterexamples on the concrete workflow *)

Lemma is_completed_prefix_witness :
  exists st', Demo.is_completed Demo.ABC Demo.B (fresh Demo.e2) = (Ok true, st') /\
    (previous_step Demo.is_active Demo.ABC (env st') Demo.B = None \/
     exists p, previous_step Demo.is_active Demo.ABC (env st') Demo.B = Some p /\
       Demo.is_completed Demo.ABC p st' = (Ok true, st')).
Proof.
  exists (snd (Demo.is_completed Demo.ABC Demo.B (fresh Demo.e2))).
  assert (H : Demo.is_completed Demo.ABC Demo.B (fresh Demo.e2) =
              (Ok true, snd (Demo.is_completed Demo.ABC Demo.B (fresh Demo.e2))))
    by reflexivity.
  split; [exact H | exact (is_completed_prefix Demo.is_active Demo._is_completed Demo.get_errors _ _ _ _ H)].
Defined.


Lemma init_rejects_steps_witness :
  Demo.init [0; 1; 2] [("steps", VData tt)] = (Err ValueError, []).
Proof.
  exact (init_rejects_steps Demo.slug [0; 1; 2] Demo.include_in Demo.as_dict Demo.as_class
           Demo.iter_items [("steps", VData tt)] (VData tt) (or_introl eq_refl)).
Defined.


Lemma get_success_url_spec_witness :
  fst (Demo.get_success_url Demo.ABC (Some Demo.C) (fresh Demo.e1)) = Err AttributeError.
Proof.
  assert (H : errors Demo.get_errors Demo.C (fresh Demo.e1) =
              (Ok [], snd (errors Demo.get_errors Demo.C (fresh Demo.e1)))) by reflexivity.
  exact (proj1 (proj2 (get_success_url_spec Demo.view_name Demo.is_active Demo.get_errors
                         Demo.ABC Demo.C _ _ _ H)) eq_refl eq_refl).
Defined.

Lemma is_accessible_ignores_own_activity_witness :
  Demo.is_active Demo.e3 Demo.A = false /\
  fst (Demo.is_accessible Demo.ABC Demo.A (fresh Demo.e3)) = Ok true.
Proof.
  split; [reflexivity|].
  apply (is_accessible_ignores_own_activity Demo.is_active Demo._is_completed Demo.get_errors).
  - reflexivity.
  - left; reflexivity.
Defined.



(** * Instances of the further properties *)

Lemma is_completed_whole_prefix_witness :
  (Demo._is_completed Demo.e2 Demo.B = true /\ Demo.get_errors Demo.e2 Demo.B = []) /\
  forall q, In q (firstn (index Demo.B) (values Demo.ABC)) -> Demo.is_active Demo.e2 q = true ->
    Demo._is_completed Demo.e2 q = true /\ Demo.get_errors Demo.e2 q = [].
Proof.
  assert (H : Demo.is_completed Demo.ABC Demo.B (fresh Demo.e2) =
              (Ok true, snd (Demo.is_completed Demo.ABC Demo.B (fresh Demo.e2))))
    by reflexivity.
  refine (is_completed_whole_prefix Demo.is_active Demo._is_completed Demo.get_errors
            Demo.ABC Demo.B (fresh Demo.e2) _ _ _ _ H).
  - reflexivity.
  - intros s _; split; intros b Hb; discriminate.
  - simpl; auto.
Defined.

Lemma is_completed_depth_bound_witness :
  exists b st', is_completed_fuel Demo.is_active Demo._is_completed Demo.get_errors 3 Demo.ABC Demo.C
                  (fresh Demo.e1) = (Ok b, st').
Proof.
  refine (is_completed_depth_bound Demo.is_active Demo._is_completed Demo.get_errors
            Demo.ABC _ 3 Demo.C (fresh Demo.e1) _).
  - reflexivity.
  - simpl; auto.
Defined.

Lemma dispatch_redirect_target_valid_witness :
  In Demo.B (values Demo.ABC) /\ Demo.is_active Demo.e1 Demo.B = true /\
  accessible_b Demo.is_active Demo._is_completed Demo.get_errors Demo.ABC Demo.e1 Demo.B = true.
Proof.
  refine (dispatch_redirect_target_valid Demo.is_active Demo._is_completed Demo.get_errors
            Demo.ABC "c" (fresh Demo.e1) Demo.B _ _ _).
  - reflexivity.
  - intros s _; split; intros b Hb; discriminate.
  - reflexivity.
Defined.

Lemma dispatch_redirects_when_some_active_witness :
  (exists f, find (Demo.is_active Demo.e3) (values Demo.ABC) = Some f /\
     Demo.is_accessible Demo.ABC f (fresh Demo.e3) = (Ok true, fresh Demo.e3)) /\
  (forall r st', Demo.dispatch (Some Demo.ABC) (Some "z") (fresh Demo.e3) = (Ok r, st') ->
     exists t, r = Redirect t).
Proof.
  refine (dispatch_redirects_when_some_active Demo.is_active Demo._is_completed Demo.get_errors
            Demo.ABC "z" (fresh Demo.e3) Demo.B _ _ _ _ _).
  - reflexivity.
  - intros s _; split; intros b Hb; discriminate.
  - simpl; auto.
  - reflexivity.
  - reflexivity.
Defined.

Lemma active_steps_neighbours_witness :
  @active_steps nat unit Demo.Env string Demo.is_active Demo.ABC (fresh Demo.e3) =
    (Ok (filter (Demo.is_active Demo.e3) [Demo.A] ++
         Demo.B :: filter (Demo.is_active Demo.e3) [Demo.C])%list, fresh Demo.e3) /\
  previous_step Demo.is_active Demo.ABC Demo.e3 Demo.B =
    hd_error (rev (filter (Demo.is_active Demo.e3) [Demo.A])) /\
  next_step Demo.is_active Demo.ABC Demo.e3 Demo.B =
    hd_error (filter (Demo.is_active Demo.e3) [Demo.C]).
Proof.
  refine (active_steps_neighbours Demo.is_active Demo.ABC [Demo.A] Demo.B [Demo.C]
            (fresh Demo.e3) _ _ _); reflexivity.
Defined.

Lemma init_active_steps_kwarg_fails_witness :
  fst (Demo.init [0; 1; 2] [("skip", VClasses [1]); ("active_steps", VData tt)]) = Err AttributeError.
Proof.
  refine (init_active_steps_kwarg_fails Demo.slug [0; 1; 2] Demo.include_in Demo.as_dict
            Demo.as_class Demo.iter_items [("skip", VClasses [1]); ("active_steps", VData tt)] _ _ _ _).
  - simpl; intros [H | [H | []]]; discriminate.
  - simpl; intros [H | [H | []]]; discriminate.
  - simpl; intros [H | [H | []]]; discriminate.
  - simpl; right; left; reflexivity.
Defined.

Lemma init_step_classes_kwarg_witness :
  Demo.init [0; 1; 2] [("step_classes", VClasses [2; 0])] =
    (Ok (mkWorkflow [("step_classes", VClasses [2; 0])]
           (build_steps Demo.slug Demo.include_in [("step_classes", VClasses [2; 0])] [2; 0])),
     [("step_classes", VClasses [2; 0])]) /\
  Demo.init [0; 1; 2] [("step_classes", VData tt)] = (Err TypeError, [("step_classes", VData tt)]).
Proof.
  split.
  - refine (init_step_classes_kwarg Demo.slug [0; 1; 2] Demo.include_in Demo.as_dict Demo.as_class
              Demo.iter_items [("step_classes", VClasses [2; 0])] (VClasses [2; 0]) _ _ _ _).
    + simpl; constructor; [intros [] | constructor].
    + simpl; intros [H | []]; discriminate.
    + simpl; intros k [<- | []] H; simpl in H; intuition discriminate.
    + simpl; left; reflexivity.
  - refine (init_step_classes_kwarg Demo.slug [0; 1; 2] Demo.include_in Demo.as_dict Demo.as_class
              Demo.iter_items [("step_classes", VData tt)] (VData tt) _ _ _ _).
    + simpl; constructor; [intros [] | constructor].
    + simpl; intros [H | []]; discriminate.
    + simpl; intros k [<- | []] H; simpl in H; intuition discriminate.
    + simpl; left; reflexivity.
Defined.

Lemma clean_kwargs_spec_witness :
  (forall k, dict_get k (_clean_kwargs [("event_slug", Some 1); ("step", None)]) =
     match dict_get k [("event_slug", Some 1); ("step", @None nat)] with
     | Some (Some v) => Some (Some v) | _ => None end) /\
  (forall k v, In (k, v) (_clean_kwargs [("event_slug", Some 1); ("step", None)]) -> v <> None).
Proof.
  apply clean_kwargs_spec. simpl.
  constructor; [intros [H | []]; discriminate | constructor; [intros [] | constructor]].
Defined.

Lemma clear_expired_carts_monotone_witness :
  incl (clear_expired_carts "reserved" (fun _ => 0) (fun _ => 30%Z) 9000000000%Z tt
          [mkBoughtItem "reserved" (mkOrder 0 (Some 1000000000%Z))])
       (clear_expired_carts "reserved" (fun _ => 0) (fun _ => 30%Z) 2000000000%Z tt
          [mkBoughtItem "reserved" (mkOrder 0 (Some 1000000000%Z))]).
Proof.
  apply clear_expired_carts_monotone. lia.
Defined.
